(** * ChunkAllocator (be/src/runtime/memory/chunk_allocator.h)

    A shallow embedding of Doris' power-of-two chunk cache.  The header
    declares the class, its fields and the signatures of its operations;
    the bodies of [allocate], [allocate_align], both [free] overloads,
    [init_instance] and the constructor live in chunk_allocator.cpp, which
    is not in this source tree.  Those bodies are therefore
    modelled from the design document, each such definition saying so in
    its doc comment, while the types and signatures follow the header.

    Byte counts are modelled as mathematical integers, as the design
    document states its arithmetic ([global_cached_bytes + chunk.size <=
    reserve_limit]). *)

From Stdlib Require Import ZArith Lia.
From stdpp Require Import base list gmap.

Open Scope Z_scope.

(* ------------------------------------------------------------------ *)
(** ** Status codes and results *)

(** The error kinds of the design document (Doris' [Status]). *)
Inductive StatusCode :=
| InvalidArgument
| ResourceExceeded
| OutOfMemory.

Inductive result (A : Type) :=
| Ok (a : A)
| Err (e : StatusCode).
Arguments Ok {A} a.
Arguments Err {A} e.

(** A power of two, as the header's "power-of-two length". *)
Definition is_power_of_two (n : Z) : Prop := exists k, 0 <= k /\ n = 2 ^ k.

(* ------------------------------------------------------------------ *)
(** ** Size-class index *)

(** log2 of the largest chunk size a size class can describe. *)
Definition max_chunk_shift : Z := 35.

(** Modelled from the spec: the "fixed maximum representable chunk size"
    of the size-class index (the bucket range covers up to tens of GiB);
    its value is not in the header. *)
Definition max_chunk_size : Z := 2 ^ max_chunk_shift.

(** Doubling loop: [p] is doubled while it is below [size]. *)
Fixpoint round_up_loop (fuel : nat) (p size : Z) : Z :=
  match fuel with
  | O => p
  | S f => if p <? size then round_up_loop f (Z.shiftl p 1) size else p
  end.

(** Modelled from the spec: [round_up] of the size-class index (missing
    from the header); the smallest power of two >= [size], failing with
    [InvalidArgument] on zero or on a size above [max_chunk_size]. *)
Definition round_up (size : Z) : result Z :=
  if (size =? 0) || (max_chunk_size <? size) then Err InvalidArgument
  else Ok (round_up_loop (Z.to_nat max_chunk_shift) 1 size).

(** Modelled from the spec: [class_of], the bucket index of a size class. *)
Definition class_of (size_class : Z) : Z := Z.log2 size_class.

(* ------------------------------------------------------------------ *)
(** ** Data model *)

(** [struct Chunk] (forward-declared in the header): the raw block
    address, its length and the core whose arena it belongs to. *)
Record Chunk := mkChunk {
  data : Z;
  size : Z;
  core_id : nat
}.

(** [class ChunkArena]: one LIFO free list per size class (head = most
    recently pushed block) and the arena's local tally of cached bytes. *)
Record ChunkArena := mkChunkArena {
  chunk_lists : gmap Z (list Z);
  arena_bytes : Z
}.

(** The fields of [class ChunkAllocator]; [arenas] has one entry per core
    ([std::vector<std::unique_ptr<ChunkArena>> _arenas]). *)
Record ChunkAllocator := mkChunkAllocator {
  reserve_bytes_limit : Z;
  steal_arena_limit : Z;
  reserved_bytes : Z;
  arenas : list ChunkArena
}.

(** The external System Memory Provider: requests it receives, in order. *)
Inductive SysEvent :=
| SysAlloc (bytes : Z)
| SysAllocAligned (bytes alignment : Z)
| SysFree (p bytes : Z).

(** Provider state: next fresh address, bytes it can still hand out, and
    the log of requests made to it. *)
Record SystemAllocator := mkSystemAllocator {
  sys_next : Z;
  sys_avail : Z;
  sys_log : list SysEvent
}.

Definition sys_allocate (sp : SystemAllocator) (ev : SysEvent) (bytes : Z)
    : option Z * SystemAllocator :=
  let log := sys_log sp ++ [ev] in
  if bytes <=? sys_avail sp then
    (Some (sys_next sp),
     mkSystemAllocator (sys_next sp + bytes) (sys_avail sp - bytes) log)
  else (None, mkSystemAllocator (sys_next sp) (sys_avail sp) log).

Definition sys_free (sp : SystemAllocator) (p bytes : Z) : SystemAllocator :=
  mkSystemAllocator (sys_next sp) (sys_avail sp + bytes)
    (sys_log sp ++ [SysFree p bytes]).

(** The external [MemTracker]: bytes consumed and a limit (negative means
    unlimited). *)
Record MemTracker := mkMemTracker {
  consumption : Z;
  tracker_limit : Z
}.

Definition try_consume (t : MemTracker) (bytes : Z) : option MemTracker :=
  if (tracker_limit t <? 0) || (consumption t + bytes <=? tracker_limit t)
  then Some (mkMemTracker (consumption t + bytes) (tracker_limit t))
  else None.

Definition consume (t : MemTracker) (bytes : Z) : MemTracker :=
  mkMemTracker (consumption t + bytes) (tracker_limit t).

Definition release (t : MemTracker) (bytes : Z) : MemTracker :=
  mkMemTracker (consumption t - bytes) (tracker_limit t).

(** Everything an allocator call can affect: the allocator object, the
    system provider, and the sequence of arenas whose lock was taken. *)
Record World := mkWorld {
  alloc : ChunkAllocator;
  sys : SystemAllocator;
  arena_trace : list nat
}.

Definition set_alloc (w : World) (a : ChunkAllocator) : World :=
  mkWorld a (sys w) (arena_trace w).
Definition set_sys (w : World) (sp : SystemAllocator) : World :=
  mkWorld (alloc w) sp (arena_trace w).
Definition touch (w : World) (j : nat) : World :=
  mkWorld (alloc w) (sys w) (arena_trace w ++ [j]).

Definition set_arenas (a : ChunkAllocator) (ars : list ChunkArena)
    (reserved : Z) : ChunkAllocator :=
  mkChunkAllocator (reserve_bytes_limit a) (steal_arena_limit a) reserved ars.

(* ------------------------------------------------------------------ *)
(** ** ChunkArena *)

(** Modelled from the spec: [ChunkArena::pop_free_chunk] ([try_take]). *)
Definition pop_free_chunk (ar : ChunkArena) (size : Z)
    : option (Z * ChunkArena) :=
  match chunk_lists ar !! class_of size with
  | Some (p :: rest) =>
      Some (p, mkChunkArena (<[class_of size := rest]> (chunk_lists ar))
                            (arena_bytes ar - size))
  | _ => None
  end.

(** Modelled from the spec: [ChunkArena::push_free_chunk] ([give]). *)
Definition push_free_chunk (ar : ChunkArena) (p size : Z) : ChunkArena :=
  let l := default [] (chunk_lists ar !! class_of size) in
  mkChunkArena (<[class_of size := p :: l]> (chunk_lists ar))
               (arena_bytes ar + size).

(** Pop from arena [j] of a table ([_arenas[j]->pop_free_chunk]). *)
Definition pop_at (ars : list ChunkArena) (j : nat) (size : Z)
    : option (Z * list ChunkArena) :=
  match ars !! j with
  | Some ar =>
      match pop_free_chunk ar size with
      | Some (p, ar') => Some (p, <[j := ar']> ars)
      | None => None
      end
  | None => None
  end.

(* ------------------------------------------------------------------ *)
(** ** ChunkAllocator::allocate and allocate_align *)

(** Modelled from the spec: the steal scan of [allocate] (step 4).  Peers
    are probed in a fixed order starting right after [core] and wrapping
    around; every probe takes that arena's lock ([touch]).  The stolen
    block keeps its owner arena [j] as origin. *)
Fixpoint steal_scan (w : World) (ncores core k : nat) (fuel : nat) (size : Z)
    : option (nat * Z * list ChunkArena) * World :=
  match fuel with
  | O => (None, w)
  | S f =>
      let j := ((core + k) mod ncores)%nat in
      let w1 := touch w j in
      match pop_at (arenas (alloc w)) j size with
      | Some (p, ars) => (Some (j, p, ars), w1)
      | None => steal_scan w1 ncores core (S k) f size
      end
  end.

(** Modelled from the spec: the system fallback of [allocate] (step 5).
    With [check_limits] the tracker is asked first and a denial returns
    [ResourceExceeded] before the provider is called; [allocate_align]
    asks for an alignment equal to the size class. *)
Definition system_fallback (aligned : bool) (w : World) (core : nat) (sc : Z)
    (tracker : option MemTracker) (check_limits : bool)
    : result Chunk * World * option MemTracker :=
  let ev := if aligned then SysAllocAligned sc sc else SysAlloc sc in
  let from_system (t' : option MemTracker) :=
    match sys_allocate (sys w) ev sc with
    | (Some p, sp) => (Ok (mkChunk p sc core), set_sys w sp, t')
    | (None, sp) => (Err OutOfMemory, set_sys w sp, tracker)
    end in
  match check_limits, tracker with
  | true, Some t =>
      match try_consume t sc with
      | Some t' => from_system (Some t')
      | None => (Err ResourceExceeded, w, tracker)
      end
  | _, Some t => from_system (Some (consume t sc))
  | _, None => from_system None
  end.

(** Modelled from the spec: [ChunkAllocator::allocate] (and, with
    [aligned = true], [allocate_align]); [core] is the calling thread's
    core ([CpuInfo::get_current_core()]).  Steps: round up; local cache
    hit; steal when the global count exceeds [_steal_arena_limit]; system
    fallback.  A cached block found locally or by stealing subtracts the
    size class from [_reserved_bytes] and is recorded in the tracker. *)
Definition allocate_impl (aligned : bool) (w : World) (core : nat) (size : Z)
    (tracker : option MemTracker) (check_limits : bool)
    : result Chunk * World * option MemTracker :=
  match round_up size with
  | Err e => (Err e, w, tracker)
  | Ok sc =>
      let a := alloc w in
      let consumed := option_map (fun t => consume t sc) tracker in
      let w0 := touch w core in
      match pop_at (arenas a) core sc with
      | Some (p, ars) =>
          (Ok (mkChunk p sc core),
           set_alloc w0 (set_arenas a ars (reserved_bytes a - sc)), consumed)
      | None =>
          let '(stolen, w1) :=
            if steal_arena_limit a <? reserved_bytes a
            then steal_scan w0 (length (arenas a)) core 1
                   (length (arenas a) - 1) sc
            else (None, w0) in
          match stolen with
          | Some (j, p, ars) =>
              (Ok (mkChunk p sc j),
               set_alloc w1 (set_arenas a ars (reserved_bytes a - sc)), consumed)
          | None => system_fallback aligned w1 core sc tracker check_limits
          end
      end
  end.

Definition allocate := allocate_impl false.
Definition allocate_align := allocate_impl true.

(* ------------------------------------------------------------------ *)
(** ** ChunkAllocator::free (both overloads; they return [void]) *)

(** Modelled from the spec: the reservation check of [free] (step 2). *)
Definition free_admits (a : ChunkAllocator) (c : Chunk) : bool :=
  reserved_bytes a + size c <=? reserve_bytes_limit a.

(** Modelled from the spec: caching branch of [free]: push onto the free
    list of the chunk's origin arena and add the size to the global count. *)
Definition free_commit (w : World) (c : Chunk) : World :=
  let a := alloc w in
  let ars :=
    match arenas a !! core_id c with
    | Some ar => <[core_id c := push_free_chunk ar (data c) (size c)]> (arenas a)
    | None => arenas a
    end in
  set_alloc (touch w (core_id c)) (set_arenas a ars (reserved_bytes a + size c)).

(** Modelled from the spec: bypass branch of [free]: back to the system. *)
Definition free_bypass (w : World) (c : Chunk) : World :=
  set_sys w (sys_free (sys w) (data c) (size c)).

(** Modelled from the spec: [void free(const Chunk& chunk, MemTracker* )]. *)
Definition free (w : World) (c : Chunk) (tracker : option MemTracker)
    : World * option MemTracker :=
  (if free_admits (alloc w) c then free_commit w c else free_bypass w c,
   option_map (fun t => release t (size c)) tracker).

(** Modelled from the spec: [void free(uint8_t* data, size_t size,
    MemTracker* )]: a transient chunk tagged with the current core. *)
Definition free_data (w : World) (core : nat) (p sz : Z)
    (tracker : option MemTracker) : World * option MemTracker :=
  free w (mkChunk p sz core) tracker.

(* ------------------------------------------------------------------ *)
(** ** The public member functions as the caller sees them *)

Inductive ApiCall :=
| CallAllocate (core : nat) (sz : Z) (tracker : option MemTracker) (check_limits : bool)
| CallAllocateAlign (core : nat) (sz : Z) (tracker : option MemTracker) (check_limits : bool)
| CallFree (c : Chunk) (tracker : option MemTracker)
| CallFreeData (core : nat) (p sz : Z) (tracker : option MemTracker).

(** What a call hands back: a [Status] (with the chunk out-parameter) for
    the two [allocate]s, nothing for the two [void free]s. *)
Inductive ApiRet :=
| RetStatus (r : result Chunk)
| RetVoid.

Definition api_call (w : World) (call : ApiCall)
    : World * option MemTracker * ApiRet :=
  match call with
  | CallAllocate core sz t cl =>
      let '(r, w', t') := allocate w core sz t cl in (w', t', RetStatus r)
  | CallAllocateAlign core sz t cl =>
      let '(r, w', t') := allocate_align w core sz t cl in (w', t', RetStatus r)
  | CallFree c t => let '(w', t') := free w c t in (w', t', RetVoid)
  | CallFreeData core p sz t =>
      let '(w', t') := free_data w core p sz t in (w', t', RetVoid)
  end.

(* ------------------------------------------------------------------ *)
(** ** Construction and the process-wide instance *)

(** Modelled from the spec: the constructor [ChunkAllocator(size_t
    reserve_limit)]: one empty arena per core, the reservation limit, a
    stealing threshold that is a configured fraction ([steal_percent]
    percent) of the limit, and nothing cached yet. *)
Definition new_chunk_allocator (ncores : nat) (steal_percent reserve_limit : Z)
    : ChunkAllocator :=
  mkChunkAllocator reserve_limit (reserve_limit * steal_percent / 100) 0
    (repeat (mkChunkArena ∅ 0) ncores).

(** The static member [_s_instance]; [None] is the null pointer. *)
Record Globals := mkGlobals { s_instance : option ChunkAllocator }.

(** Static storage before [main]: zero-initialised, hence null. *)
Definition globals_at_load : Globals := mkGlobals None.

(** Modelled from the spec: [static void init_instance(size_t
    reserve_limit)] stores a freshly constructed allocator. *)
Definition init_instance (ncores : nat) (steal_percent : Z) (g : Globals)
    (reserve_limit : Z) : Globals :=
  mkGlobals (Some (new_chunk_allocator ncores steal_percent reserve_limit)).

(** [static ChunkAllocator* instance() { return _s_instance; }]
    (the build without [BE_TEST]). *)
Definition instance (g : Globals) : option ChunkAllocator := s_instance g.

(** How a call ends: it returns a value, or the process stops on a failed
    check. *)
Inductive Outcome (A : Type) :=
| Returns (a : A)
| Aborts.
Arguments Returns {A} a.
Arguments Aborts {A}.

Definition instance_call (g : Globals) : Outcome (option ChunkAllocator) :=
  Returns (instance g).

(** The calls that read or write [_s_instance]. *)
Inductive GlobalCall :=
| GInitInstance (reserve_limit : Z)
| GInstance.

Definition global_step (ncores : nat) (steal_percent : Z) (g : Globals)
    (call : GlobalCall) : Globals :=
  match call with
  | GInitInstance l => init_instance ncores steal_percent g l
  | GInstance => g
  end.

Definition run_globals (ncores : nat) (steal_percent : Z) (g : Globals)
    (calls : list GlobalCall) : Globals :=
  fold_left (global_step ncores steal_percent) calls g.

Definition is_init_call (call : GlobalCall) : bool :=
  match call with GInitInstance _ => true | GInstance => false end.

(* ------------------------------------------------------------------ *)
(** ** Concurrent interleavings *)

Module Concurrent.

(** Per-thread program point of [free]: idle, or past the reservation
    step (the chunk's size already added to [_reserved_bytes]) with the
    push onto the origin arena's free list still to come. *)
Inductive Pc :=
| Idle
| Pushing (c : Chunk).

Record CState := mkCState {
  cworld : World;
  threads : list Pc
}.

(** Modelled from the spec: the reservation step of [free]: the check
    [_reserved_bytes + size <= _reserve_bytes_limit] and the add are one
    atomic update of the counter (a compare-and-swap on the atomic). *)
Definition reserve_add (w : World) (c : Chunk) : World :=
  let a := alloc w in
  set_alloc w (set_arenas a (arenas a) (reserved_bytes a + size c)).

(** Modelled from the spec: the push of [free] onto the free list of the
    chunk's origin arena, under that arena's lock. *)
Definition free_push (w : World) (c : Chunk) : World :=
  let a := alloc w in
  let ars :=
    match arenas a !! core_id c with
    | Some ar => <[core_id c := push_free_chunk ar (data c) (size c)]> (arenas a)
    | None => arenas a
    end in
  set_alloc (touch w (core_id c)) (set_arenas a ars (reserved_bytes a)).

(** Interleaving semantics: an [allocate] runs as one step (its only
    effect on [_reserved_bytes] is a subtraction); a [free] either hands
    the block to the system, or reserves its size atomically and pushes
    the block in a later step, so other threads' [allocate] and [free]
    steps run while the chunk is in flight (counted, not yet cached). *)
Inductive cstep : CState -> CState -> Prop :=
| cstep_allocate (w : World) (ths : list Pc) (i core : nat) (aligned : bool)
    (sz : Z) (t : option MemTracker) (cl : bool) r w' t' :
    ths !! i = Some Idle ->
    allocate_impl aligned w core sz t cl = (r, w', t') ->
    cstep (mkCState w ths) (mkCState w' ths)
| cstep_free_reserve (w : World) (ths : list Pc) (i : nat) (c : Chunk) :
    ths !! i = Some Idle ->
    free_admits (alloc w) c = true ->
    cstep (mkCState w ths) (mkCState (reserve_add w c) (<[i := Pushing c]> ths))
| cstep_free_bypass (w : World) (ths : list Pc) (i : nat) (c : Chunk) :
    ths !! i = Some Idle ->
    free_admits (alloc w) c = false ->
    cstep (mkCState w ths) (mkCState (free_bypass w c) ths)
| cstep_free_push (w : World) (ths : list Pc) (i : nat) (c : Chunk) :
    ths !! i = Some (Pushing c) ->
    cstep (mkCState w ths) (mkCState (free_push w c) (<[i := Idle]> ths)).

Definition cinit (ncores nthreads : nat) (steal_percent limit : Z)
    (sp : SystemAllocator) : CState :=
  mkCState (mkWorld (new_chunk_allocator ncores steal_percent limit) sp [])
           (replicate nthreads Idle).

(** States reachable by [nthreads] threads from a freshly constructed
    allocator (a [size_t] limit is non-negative). *)
Definition reachable (nthreads : nat) (st : CState) : Prop :=
  exists ncores steal_percent limit sp,
    0 <= limit /\ rtc cstep (cinit ncores nthreads steal_percent limit sp) st.

Definition cached_bytes (st : CState) : Z := reserved_bytes (alloc (cworld st)).
Definition limit_of (st : CState) : Z := reserve_bytes_limit (alloc (cworld st)).

(** The invariant behind the bound: the limit is the configured one and
    the count, in-flight chunks included, is within it. *)
Definition within_limit_inv (limit : Z) (st : CState) : Prop :=
  limit_of st = limit /\ cached_bytes st <= limit.

End Concurrent.

(* ------------------------------------------------------------------ *)
(** ** Auxiliary notions for the properties *)

(** A small machine for the concrete checks: two cores, a 1 MiB
    reservation limit, a 10% stealing threshold. *)
Definition demo_world : World :=
  mkWorld (new_chunk_allocator 2 10 (2 ^ 20)) (mkSystemAllocator 4096 (2 ^ 30) []) [].

(** The local arena holds a free block of size class [sc]. *)
Definition local_has_block (w : World) (core : nat) (sc : Z) : Prop :=
  is_Some (pop_at (arenas (alloc w)) core sc).

(** One 64 KiB block cached in arena 0 of [demo_world]. *)
Definition cached_world : World := fst (free demo_world (mkChunk 4096 65536 0) None).

(** One 128 KiB block cached in arena 1 of [demo_world]: more than the
    10% stealing threshold. *)
Definition peer_cached_world : World :=
  fst (free demo_world (mkChunk 4096 131072 1) None).

(** A tracker with no quota left. *)
Definition full_tracker : MemTracker := mkMemTracker 0 0.

(** The configuration of the allocator: limits and one arena per core. *)
Definition same_configuration (a a' : ChunkAllocator) : Prop :=
  reserve_bytes_limit a' = reserve_bytes_limit a /\
  steal_arena_limit a' = steal_arena_limit a /\
  length (arenas a') = length (arenas a).

(* ------------------------------------------------------------------ *)
(** ** Sequences of calls *)

(** One thread issuing public member calls one after the other. *)
Fixpoint run_calls (w : World) (calls : list ApiCall) : World :=
  match calls with
  | [] => w
  | call :: rest => run_calls (fst (fst (api_call w call))) rest
  end.

(** The chunk a [free] call hands back has a positive length (it is a
    size class handed out by [allocate]). *)
Definition freed_size_pos (call : ApiCall) : Prop :=
  match call with
  | CallFree c _ => 0 < size c
  | CallFreeData _ _ sz _ => 0 < sz
  | _ => True
  end.

(** The arena a [free] call routes to exists ([_arenas[core_id]]). *)
Definition freed_core_in (n : nat) (call : ApiCall) : Prop :=
  match call with
  | CallFree c _ => (core_id c < n)%nat
  | CallFreeData core _ _ _ => (core < n)%nat
  | _ => True
  end.

(** No arena holds any free block. *)
Definition arenas_empty (a : ChunkAllocator) : Prop :=
  forall j ar k l, arenas a !! j = Some ar -> chunk_lists ar !! k = Some l -> l = [].

(** Sum of the arenas' local tallies. *)
Definition arena_total (ars : list ChunkArena) : Z :=
  fold_right (fun ar acc => arena_bytes ar + acc) 0 ars.

(* ================================================================== *)
(** * Properties *)

Example round_up_4097 : round_up 4097 = Ok 8192.
Proof. reflexivity. Qed.

Example round_up_max : round_up max_chunk_size = Ok max_chunk_size.
Proof. vm_compute. reflexivity. Qed.

Example round_up_above_max : round_up (max_chunk_size + 1) = Err InvalidArgument.
Proof. vm_compute. reflexivity. Qed.

(* ------------------------------------------------------------------ *)
(** ** Size classes *)

Lemma round_up_loop_pow (fuel : nat) : forall k s,
  0 <= k -> 0 < s -> s <= 2 ^ (k + Z.of_nat fuel) -> k <= Z.log2_up s ->
  round_up_loop fuel (2 ^ k) s = 2 ^ Z.log2_up s.
Proof.
  induction fuel as [|f IH]; intros k s Hk Hs Hle Hlog; simpl.
  - rewrite Z.add_0_r in Hle.
    apply Z.log2_up_le_pow2 in Hle; [|lia].
    now replace k with (Z.log2_up s) by lia.
  - destruct (Z.ltb_spec (2 ^ k) s) as [Hlt|Hge].
    + rewrite Z.shiftl_mul_pow2 by lia.
      rewrite <- Z.pow_add_r by lia.
      apply Z.log2_up_lt_pow2 in Hlt; [|lia].
      apply IH; try lia.
      now replace (k + 1 + Z.of_nat f) with (k + Z.of_nat (S f)) by lia.
    + apply Z.log2_up_le_pow2 in Hge; [|lia].
      now replace k with (Z.log2_up s) by lia.
Qed.

Lemma round_up_ok_eq s :
  0 < s <= max_chunk_size -> round_up s = Ok (2 ^ Z.log2_up s).
Proof.
  intros [Hpos Hmax]. unfold round_up.
  replace (s =? 0) with false by (symmetry; apply Z.eqb_neq; lia).
  replace (max_chunk_size <? s) with false by (symmetry; apply Z.ltb_ge; lia).
  cbn [orb]. f_equal. change 1 with (2 ^ 0).
  apply round_up_loop_pow; [lia | lia | | apply Z.log2_up_nonneg].
  rewrite Z2Nat.id by (unfold max_chunk_shift; lia).
  exact Hmax.
Qed.

Lemma round_up_Ok_inv s sc :
  round_up s = Ok sc -> 0 < s -> 0 < s <= max_chunk_size /\ sc = 2 ^ Z.log2_up s.
Proof.
  intros H Hpos.
  assert (Hr : 0 < s <= max_chunk_size).
  { unfold round_up in H.
    destruct (Z.eqb_spec s 0); [lia|].
    destruct (Z.ltb_spec max_chunk_size s); [discriminate | lia]. }
  split; [exact Hr|].
  rewrite (round_up_ok_eq s Hr) in H. congruence.
Qed.

Lemma pow2_log2_up_ge s : 0 < s -> s <= 2 ^ Z.log2_up s.
Proof. intros H. apply Z.log2_up_le_pow2; lia. Qed.

Lemma pow2_log2_up_lt_double s : 0 < s -> 2 ^ Z.log2_up s < 2 * s.
Proof.
  intros H. destruct (Z.eq_dec s 1) as [->|Hne].
  - reflexivity.
  - destruct (Z.log2_up_spec s) as [Hlo _]; [lia|].
    assert (Hl : 0 < Z.log2_up s) by (apply Z.log2_up_pos; lia).
    replace (Z.log2_up s) with (Z.succ (Z.pred (Z.log2_up s))) by lia.
    rewrite Z.pow_succ_r by lia. lia.
Qed.

Lemma pow2_log2_up_least s k : 0 < s -> 0 <= k -> s <= 2 ^ k -> 2 ^ Z.log2_up s <= 2 ^ k.
Proof.
  intros Hs Hk Hle. apply Z.pow_le_mono_r; [lia|].
  apply Z.log2_up_le_pow2; lia.
Qed.

(* ------------------------------------------------------------------ *)
(** ** Shape of the [allocate] outcome *)

Lemma system_fallback_ok aligned w core sc t cl c w' t' :
  system_fallback aligned w core sc t cl = (Ok c, w', t') ->
  size c = sc /\ core_id c = core.
Proof.
  unfold system_fallback. intros H.
  repeat case_match; simplify_eq; simpl; auto.
Qed.

Lemma allocate_impl_ok_size aligned w core s t cl c w' t' :
  allocate_impl aligned w core s t cl = (Ok c, w', t') ->
  round_up s = Ok (size c).
Proof.
  unfold allocate_impl. intros H.
  destruct (round_up s) as [sc|e] eqn:Hr; [|congruence].
  repeat case_match; simplify_eq; simpl; auto.
  all: match goal with
  | Hs : system_fallback _ _ _ _ _ _ = _ |- _ =>
      apply system_fallback_ok in Hs; destruct Hs as [-> _]
  end; reflexivity.
Qed.

(* ------------------------------------------------------------------ *)
(** ** C1 and C2: size classes of allocated chunks *)

(** C1: for every size [s > 0], a successful [allocate(s)] returns a chunk
    whose recorded size is a power of two and at least [s]. *)
Theorem allocate_size_power_of_two w core s t cl c w' t' :
  0 < s ->
  allocate w core s t cl = (Ok c, w', t') ->
  is_power_of_two (size c) /\ s <= size c.
Proof.
  intros Hs H.
  apply allocate_impl_ok_size in H.
  destruct (round_up_Ok_inv s (size c) H Hs) as [_ ->].
  split.
  - exists (Z.log2_up s). split; [apply Z.log2_up_nonneg | reflexivity].
  - apply pow2_log2_up_ge; lia.
Qed.

Lemma allocate_size_power_of_two_witness :
  let '(r, w', t') := allocate demo_world 0 65536 None false in
  exists c, r = Ok c /\ is_power_of_two (size c) /\ 65536 <= size c.
Proof.
  destruct (allocate demo_world 0 65536 None false) as [[r w'] t'] eqn:E.
  destruct r as [c|e].
  - exists c. split; [reflexivity|].
    exact (allocate_size_power_of_two demo_world 0 65536 None false c w' t'
             ltac:(lia) E).
  - vm_compute in E. discriminate.
Defined.

(** C2: for [0 < s <= max_chunk_size], [round_up s] is the smallest power
    of two [>= s] (so a power of two, [>= s] and [< 2s]); for [s = 0] or
    [s] above the maximum it fails with [InvalidArgument]; hence
    [allocate(0)] fails with [InvalidArgument]. *)
Theorem round_up_smallest_power_of_two (s : Z) :
  (0 < s <= max_chunk_size ->
   exists r, round_up s = Ok r /\ is_power_of_two r /\ s <= r /\ r < 2 * s /\
     (forall k, 0 <= k -> s <= 2 ^ k -> r <= 2 ^ k)) /\
  (s = 0 \/ max_chunk_size < s -> round_up s = Err InvalidArgument) /\
  (forall w core t cl, allocate w core 0 t cl = (Err InvalidArgument, w, t)).
Proof.
  split; [|split].
  - intros Hr. exists (2 ^ Z.log2_up s).
    split; [apply round_up_ok_eq; exact Hr|].
    split; [exists (Z.log2_up s); split; [apply Z.log2_up_nonneg | reflexivity]|].
    split; [apply pow2_log2_up_ge; lia|].
    split; [apply pow2_log2_up_lt_double; lia|].
    intros k Hk Hle. apply pow2_log2_up_least; lia.
  - intros [->|Hgt]; [reflexivity|].
    unfold round_up.
    replace (max_chunk_size <? s) with true by (symmetry; apply Z.ltb_lt; lia).
    now rewrite Bool.orb_true_r.
  - intros w core t cl. reflexivity.
Qed.

Lemma round_up_smallest_power_of_two_witness :
  exists r, round_up 4097 = Ok r /\ is_power_of_two r /\ 4097 <= r /\ r < 2 * 4097 /\
    (forall k, 0 <= k -> 4097 <= 2 ^ k -> r <= 2 ^ k).
Proof.
  apply (proj1 (round_up_smallest_power_of_two 4097)).
  unfold max_chunk_size, max_chunk_shift; lia.
Defined.

(* ------------------------------------------------------------------ *)
(** ** Arena tables and the steal scan *)

Lemma pop_at_some ars j sc p ars' :
  pop_at ars j sc = Some (p, ars') ->
  exists ar ar', ars !! j = Some ar /\ pop_free_chunk ar sc = Some (p, ar') /\
                 ars' = <[j := ar']> ars.
Proof.
  unfold pop_at. intros H.
  destruct (ars !! j) as [ar|] eqn:Hj; [|discriminate].
  destruct (pop_free_chunk ar sc) as [[p0 ar0]|] eqn:Hp; [|discriminate].
  injection H as <- <-. eauto.
Qed.

Lemma pop_at_length ars j sc p ars' :
  pop_at ars j sc = Some (p, ars') -> length ars' = length ars.
Proof.
  intros H. destruct (pop_at_some _ _ _ _ _ H) as (ar & ar' & _ & _ & ->).
  apply length_insert.
Qed.

(** [pop_at] only reads entry [j] of the table. *)
Lemma pop_at_none_ext ars ars2 j sc :
  ars2 !! j = ars !! j -> pop_at ars j sc = None -> pop_at ars2 j sc = None.
Proof.
  unfold pop_at. intros Hj. rewrite Hj.
  destruct (ars !! j) as [ar|]; [|auto].
  destruct (pop_free_chunk ar sc) as [[??]|]; congruence.
Qed.

(** A pushed block is the next one popped from its list (LIFO). *)
Lemma pop_push ar p sc :
  pop_free_chunk (push_free_chunk ar p sc) sc =
  Some (p, mkChunkArena (<[class_of sc := default [] (chunk_lists ar !! class_of sc)]>
                           (chunk_lists ar)) (arena_bytes ar + sc - sc)).
Proof.
  unfold pop_free_chunk, push_free_chunk. simpl.
  rewrite lookup_insert_eq. f_equal. f_equal. f_equal.
  apply insert_insert_eq.
Qed.

Lemma steal_scan_spec (fuel : nat) : forall w ncores core k sc r w',
  steal_scan w ncores core k fuel sc = (r, w') ->
  alloc w' = alloc w /\ sys w' = sys w /\
  (exists probes, arena_trace w' = arena_trace w ++ probes) /\
  (forall j p ars', r = Some (j, p, ars') -> pop_at (arenas (alloc w)) j sc = Some (p, ars')).
Proof.
  induction fuel as [|f IH]; intros w ncores core k sc r w' H; simpl in H.
  - injection H as <- <-. split; [|split; [|split]]; auto.
    + exists []. now rewrite app_nil_r.
    + discriminate.
  - destruct (pop_at (arenas (alloc w)) ((core + k) mod ncores) sc)
      as [[p0 ars0]|] eqn:Hp.
    + injection H as <- <-. simpl. split; [|split; [|split]]; auto.
      * eexists. reflexivity.
      * intros j p ars' E. injection E as <- <- <-. exact Hp.
    + apply IH in H as (Ha & Hs & [probes Ht] & Hr). simpl in *.
      split; [|split; [|split]]; auto.
      * exists ([(core + k) mod ncores]%nat ++ probes). rewrite Ht, app_assoc. reflexivity.
Qed.

Lemma system_fallback_frame aligned w core sc t cl r w' t' :
  system_fallback aligned w core sc t cl = (r, w', t') ->
  alloc w' = alloc w /\ arena_trace w' = arena_trace w.
Proof.
  unfold system_fallback. intros H.
  repeat case_match; simplify_eq; simpl; auto.
Qed.

Lemma round_up_loop_ge (fuel : nat) : forall p s, 0 < p -> p <= round_up_loop fuel p s.
Proof.
  induction fuel as [|f IH]; intros p s Hp; simpl; [lia|].
  destruct (p <? s); [|lia].
  rewrite Z.shiftl_mul_pow2 by lia.
  specialize (IH (p * 2 ^ 1) s ltac:(lia)). lia.
Qed.

Lemma round_up_pos s sc : round_up s = Ok sc -> 0 < sc.
Proof.
  intros H.
  pose proof (round_up_loop_ge (Z.to_nat max_chunk_shift) 1 s ltac:(lia)) as Hge.
  unfold round_up in H.
  destruct ((s =? 0) || (max_chunk_size <? s)); [discriminate|].
  assert (Hx : round_up_loop (Z.to_nat max_chunk_shift) 1 s = sc) by congruence.
  lia.
Qed.

(* ------------------------------------------------------------------ *)
(** ** C3: the reservation check of [free] *)

(** C3: releasing a chunk whose size still fits under the reservation
    limit pushes its block on top of the origin arena's free list for its
    size class and adds the size to the global count, without calling the
    system; otherwise the block goes to the System Memory Provider and the
    global count and the arenas are unchanged. *)
Theorem free_reservation_check w c t :
  (core_id c < length (arenas (alloc w)))%nat ->
  let w' := fst (free w c t) in
  (reserved_bytes (alloc w) + size c <= reserve_bytes_limit (alloc w) ->
     reserved_bytes (alloc w') = reserved_bytes (alloc w) + size c /\
     (exists ar ar', arenas (alloc w) !! core_id c = Some ar /\
        arenas (alloc w') !! core_id c = Some ar' /\
        chunk_lists ar' !! class_of (size c) =
          Some (data c :: default [] (chunk_lists ar !! class_of (size c)))) /\
     sys w' = sys w) /\
  (reserve_bytes_limit (alloc w) < reserved_bytes (alloc w) + size c ->
     reserved_bytes (alloc w') = reserved_bytes (alloc w) /\
     arenas (alloc w') = arenas (alloc w) /\
     sys_log (sys w') = sys_log (sys w) ++ [SysFree (data c) (size c)]).
Proof.
  intros Hc.
  destruct (lookup_lt_is_Some_2 _ _ Hc) as [ar Har].
  unfold free, free_admits, free_commit, free_bypass. simpl.
  split; intros Hle.
  - replace (reserved_bytes (alloc w) + size c <=? reserve_bytes_limit (alloc w))
      with true by (symmetry; apply Z.leb_le; lia).
    simpl. rewrite Har. split; [reflexivity|]. split; [|reflexivity].
    exists ar, (push_free_chunk ar (data c) (size c)).
    split; [reflexivity|]. split.
    + apply list_lookup_insert_eq. exact Hc.
    + unfold push_free_chunk. simpl. apply lookup_insert_eq.
  - replace (reserved_bytes (alloc w) + size c <=? reserve_bytes_limit (alloc w))
      with false by (symmetry; apply Z.leb_gt; lia).
    simpl. auto.
Qed.

Lemma free_reservation_check_witness :
  let c := mkChunk 4096 65536 0 in
  let w' := fst (free demo_world c None) in
  (reserved_bytes (alloc demo_world) + size c <= reserve_bytes_limit (alloc demo_world) ->
     reserved_bytes (alloc w') = reserved_bytes (alloc demo_world) + size c /\
     (exists ar ar', arenas (alloc demo_world) !! core_id c = Some ar /\
        arenas (alloc w') !! core_id c = Some ar' /\
        chunk_lists ar' !! class_of (size c) =
          Some (data c :: default [] (chunk_lists ar !! class_of (size c)))) /\
     sys w' = sys demo_world) /\
  (reserve_bytes_limit (alloc demo_world) < reserved_bytes (alloc demo_world) + size c ->
     reserved_bytes (alloc w') = reserved_bytes (alloc demo_world) /\
     arenas (alloc w') = arenas (alloc demo_world) /\
     sys_log (sys w') = sys_log (sys demo_world) ++ [SysFree (data c) (size c)]).
Proof.
  exact (free_reservation_check demo_world (mkChunk 4096 65536 0) None
           ltac:(simpl; lia)).
Defined.

(* ------------------------------------------------------------------ *)
(** ** C4: stealing is gated *)

(** C4: when the local arena has a free block of the requested class, or
    the global cached-byte count does not exceed the stealing threshold,
    [allocate] takes no lock but the local arena's and leaves every peer
    arena unchanged. *)
Theorem allocate_steal_gated aligned w core s t cl :
  (forall sc, round_up s = Ok sc -> local_has_block w core sc) \/
  reserved_bytes (alloc w) <= steal_arena_limit (alloc w) ->
  let '(_, w', _) := allocate_impl aligned w core s t cl in
  (exists probes, arena_trace w' = arena_trace w ++ probes /\ Forall (eq core) probes) /\
  (forall j, j <> core -> arenas (alloc w') !! j = arenas (alloc w) !! j).
Proof.
  intros Hgate.
  destruct (allocate_impl aligned w core s t cl) as [[r w'] t'] eqn:E.
  unfold allocate_impl in E.
  destruct (round_up s) as [sc|e] eqn:Hr.
  2:{ injection E as <- <- <-. split; [|auto].
      exists []. rewrite app_nil_r. split; [reflexivity | constructor]. }
  destruct (pop_at (arenas (alloc w)) core sc) as [[p ars]|] eqn:Hp.
  - injection E as <- <- <-. simpl. split.
    + exists [core]. split; [reflexivity | repeat constructor].
    + intros j Hj. apply pop_at_some in Hp as (ar & ar' & _ & _ & ->).
      apply list_lookup_insert_ne. congruence.
  - assert (Hle : reserved_bytes (alloc w) <= steal_arena_limit (alloc w)).
    { destruct Hgate as [Hgate|Hgate]; [|exact Hgate].
      destruct (Hgate sc eq_refl) as [x Hx]. congruence. }
    replace (steal_arena_limit (alloc w) <? reserved_bytes (alloc w))
      with false in E by (symmetry; apply Z.ltb_ge; lia).
    apply system_fallback_frame in E as [Ha Ht].
    rewrite Ha, Ht. simpl. split; [|auto].
    exists [core]. split; [reflexivity | repeat constructor].
Qed.

Lemma allocate_steal_gated_witness :
  let '(_, w', _) := allocate demo_world 0 65536 None false in
  (exists probes, arena_trace w' = arena_trace demo_world ++ probes /\ Forall (eq 0%nat) probes) /\
  (forall j, j <> 0%nat -> arenas (alloc w') !! j = arenas (alloc demo_world) !! j).
Proof.
  apply (allocate_steal_gated false demo_world 0 65536 None false).
  right. vm_compute. discriminate.
Defined.

(* ------------------------------------------------------------------ *)
(** ** C5: a denying tracker under [check_limits] *)

Lemma system_fallback_denied aligned w core sc t :
  try_consume t sc = None ->
  system_fallback aligned w core sc (Some t) true = (Err ResourceExceeded, w, Some t).
Proof. intros H. unfold system_fallback. rewrite H. reflexivity. Qed.

Example cached_world_hit :
  fst (fst (allocate cached_world 0 65536 (Some full_tracker) true)) =
  Ok (mkChunk 4096 65536 0).
Proof. vm_compute. reflexivity. Qed.

(** C5: with [check_limits] and a tracker that denies the size class,
    [allocate] (and [allocate_align]) makes no request to the System
    Memory Provider.  When the tracker is consulted, in the system
    fallback once no cached block was taken, the call fails with
    [ResourceExceeded] and leaves the allocator and the tracker as they
    were; the only other outcome is a cache hit (local, or stolen from a
    peer), where no quota request is made.  In particular the call fails
    with [ResourceExceeded] when no arena holds a block of the class, and
    when the local arena holds none and the cached-byte count does not
    exceed the stealing threshold. *)
Theorem allocate_denied_tracker_no_system aligned w core s t sc :
  round_up s = Ok sc ->
  try_consume t sc = None ->
  let '(r, w', t') := allocate_impl aligned w core s (Some t) true in
  sys w' = sys w /\
  ((r = Err ResourceExceeded /\ alloc w' = alloc w /\ t' = Some t) \/
   (exists p j ars, r = Ok (mkChunk p sc j) /\
      pop_at (arenas (alloc w)) j sc = Some (p, ars) /\
      alloc w' = set_arenas (alloc w) ars (reserved_bytes (alloc w) - sc))) /\
  ((forall j, pop_at (arenas (alloc w)) j sc = None) -> r = Err ResourceExceeded) /\
  (pop_at (arenas (alloc w)) core sc = None ->
   reserved_bytes (alloc w) <= steal_arena_limit (alloc w) ->
   r = Err ResourceExceeded).
Proof.
  intros Hr Ht.
  destruct (allocate_impl aligned w core s (Some t) true) as [[r w'] t'] eqn:E.
  unfold allocate_impl in E. rewrite Hr in E.
  destruct (pop_at (arenas (alloc w)) core sc) as [[p ars]|] eqn:Hp.
  - injection E as <- <- <-. split; [reflexivity|]. split.
    + right. exists p, core, ars. auto.
    + split; intros Hn; [rewrite Hn in Hp | ]; discriminate.
  - destruct (steal_arena_limit (alloc w) <? reserved_bytes (alloc w)) eqn:Hlt.
    + destruct (steal_scan (touch w core) (length (arenas (alloc w))) core 1
                  (length (arenas (alloc w)) - 1) sc) as [stolen w1] eqn:Hs.
      apply steal_scan_spec in Hs as (Ha & Hsys & _ & Hst). simpl in Ha, Hsys.
      destruct stolen as [[[j p] ars]|].
      * injection E as <- <- <-. specialize (Hst j p ars eq_refl). simpl in Hst.
        split; [exact Hsys|]. split.
        -- right. exists p, j, ars. auto.
        -- split.
           ++ intros Hnone. rewrite Hnone in Hst. discriminate.
           ++ intros _ Hle. apply Z.ltb_lt in Hlt. lia.
      * rewrite system_fallback_denied in E by exact Ht.
        injection E as <- <- <-. auto 10.
    + rewrite system_fallback_denied in E by exact Ht.
      injection E as <- <- <-. simpl. auto 10.
Qed.

Lemma allocate_denied_tracker_no_system_witness :
  let '(r, w', t') := allocate peer_cached_world 0 65536 (Some full_tracker) true in
  sys w' = sys peer_cached_world /\
  ((r = Err ResourceExceeded /\ alloc w' = alloc peer_cached_world /\
    t' = Some full_tracker) \/
   (exists p j ars, r = Ok (mkChunk p 65536 j) /\
      pop_at (arenas (alloc peer_cached_world)) j 65536 = Some (p, ars) /\
      alloc w' = set_arenas (alloc peer_cached_world) ars
                   (reserved_bytes (alloc peer_cached_world) - 65536))) /\
  ((forall j, pop_at (arenas (alloc peer_cached_world)) j 65536 = None) ->
   r = Err ResourceExceeded) /\
  (pop_at (arenas (alloc peer_cached_world)) 0 65536 = None ->
   reserved_bytes (alloc peer_cached_world) <= steal_arena_limit (alloc peer_cached_world) ->
   r = Err ResourceExceeded).
Proof.
  exact (allocate_denied_tracker_no_system false peer_cached_world 0 65536 full_tracker 65536
           ltac:(vm_compute; reflexivity) ltac:(vm_compute; reflexivity)).
Defined.

(* ------------------------------------------------------------------ *)
(** ** C6: [free] reports nothing to its caller *)

Lemma three_not_power_of_two : ~ is_power_of_two 3.
Proof.
  intros (k & Hk & Heq).
  destruct (Z.le_gt_cases k 1) as [Hle|Hgt].
  - assert (k = 0 \/ k = 1) as [->| ->] by lia; simpl in Heq; lia.
  - assert (2 ^ 2 <= 2 ^ k) by (apply Z.pow_le_mono_r; lia).
    simpl in *. lia.
Qed.

(** C6 as stated (a release of a chunk whose size is not a power of two
    returns [InvalidArgument]) fails: [free] is declared [void]. *)
Lemma free_invalid_argument_counterexample :
  ~ (forall w c t, ~ is_power_of_two (size c) ->
       snd (api_call w (CallFree c t)) = RetStatus (Err InvalidArgument)).
Proof.
  intros H.
  specialize (H demo_world (mkChunk 4096 3 0) None three_not_power_of_two).
  vm_compute in H. discriminate.
Qed.

(** C6 (amended): both [free] overloads return [void]; whatever the chunk
    (size not a power of two, already released, ...), the caller gets no
    error result back. *)
Theorem free_returns_void w c t core p sz t2 :
  snd (api_call w (CallFree c t)) = RetVoid /\
  snd (api_call w (CallFreeData core p sz t2)) = RetVoid.
Proof.
  unfold api_call.
  destruct (free w c t) as [w1 t1].
  destruct (free_data w core p sz t2) as [w2 t3].
  split; reflexivity.
Qed.

(* ------------------------------------------------------------------ *)
(** ** C7: [instance()] before [init_instance] *)

Lemma run_globals_no_init ncores pct : forall calls g,
  forallb (fun call => negb (is_init_call call)) calls = true ->
  run_globals ncores pct g calls = g.
Proof.
  induction calls as [|call calls IH]; intros g H; [reflexivity|].
  simpl in H. apply andb_prop in H as [Hc Hrest].
  destruct call; [discriminate|].
  unfold run_globals. simpl. apply IH. exact Hrest.
Qed.

(** C7 as stated (calling [instance()] before [init_instance] fails or
    stops on a check) fails: it returns the null pointer. *)
Lemma instance_before_init_counterexample :
  ~ (forall ncores pct calls,
       forallb (fun call => negb (is_init_call call)) calls = true ->
       instance_call (run_globals ncores pct globals_at_load calls) = Aborts).
Proof.
  intros H. specialize (H 1%nat 10 [] eq_refl).
  vm_compute in H. discriminate.
Qed.

(** C7 (amended): [instance()] returns [_s_instance] unchecked: before any
    [init_instance] it returns the null pointer (neither failing nor
    handing out an allocator), afterwards the constructed allocator. *)
Theorem instance_before_init_is_null ncores pct calls :
  forallb (fun call => negb (is_init_call call)) calls = true ->
  instance_call (run_globals ncores pct globals_at_load calls) = Returns None /\
  (forall l, instance_call (run_globals ncores pct globals_at_load
                              (calls ++ [GInitInstance l])) =
             Returns (Some (new_chunk_allocator ncores pct l))).
Proof.
  intros H. split.
  - rewrite run_globals_no_init by exact H. reflexivity.
  - intros l. unfold run_globals. rewrite fold_left_app.
    reflexivity.
Qed.

Lemma instance_before_init_is_null_witness :
  instance_call (run_globals 2 10 globals_at_load [GInstance; GInstance]) = Returns None /\
  (forall l, instance_call (run_globals 2 10 globals_at_load
                              ([GInstance; GInstance] ++ [GInitInstance l])) =
             Returns (Some (new_chunk_allocator 2 10 l))).
Proof.
  apply (instance_before_init_is_null 2 10 [GInstance; GInstance]).
  reflexivity.
Defined.

(* ------------------------------------------------------------------ *)
(** ** C9: LIFO reuse on one thread *)

(** The steal scan only reads the entries it probes: a table that agrees
    with the scanned one off [j] and still yields block [p] at [j] makes
    the scan stop at [j] with [p] again. *)
Lemma steal_scan_ext (fuel : nat) : forall w w2 ncores core k sc j p ars' ars2',
  fst (steal_scan w ncores core k fuel sc) = Some (j, p, ars') ->
  (forall i, i <> j -> arenas (alloc w2) !! i = arenas (alloc w) !! i) ->
  pop_at (arenas (alloc w2)) j sc = Some (p, ars2') ->
  fst (steal_scan w2 ncores core k fuel sc) = Some (j, p, ars2').
Proof.
  induction fuel as [|f IH]; intros w w2 ncores core k sc j p ars' ars2' H Hext H2;
    simpl in *; [discriminate|].
  destruct (pop_at (arenas (alloc w)) ((core + k) mod ncores) sc)
    as [[p0 a0]|] eqn:Hp.
  - simpl in H. injection H as <- <- <-. rewrite H2. reflexivity.
  - destruct (steal_scan (touch w ((core + k) mod ncores)) ncores core (S k) f sc)
      as [r wr] eqn:Hs.
    simpl in H. subst r.
    pose proof Hs as Hs'.
    apply steal_scan_spec in Hs' as (_ & _ & _ & Hj).
    specialize (Hj j p ars' eq_refl). simpl in Hj.
    assert (Hne : ((core + k) mod ncores)%nat <> j) by (intros Heq; rewrite Heq in Hp; congruence).
    rewrite (pop_at_none_ext (arenas (alloc w)) _ _ sc (Hext _ Hne) Hp).
    apply (IH (touch w ((core + k) mod ncores)) _ _ _ _ _ _ _ ars'); auto.
    rewrite Hs. reflexivity.
Qed.

Lemma free_commit_arenas w c ar :
  arenas (alloc w) !! core_id c = Some ar ->
  arenas (alloc (free_commit w c)) =
    <[core_id c := push_free_chunk ar (data c) (size c)]> (arenas (alloc w)) /\
  reserved_bytes (alloc (free_commit w c)) = reserved_bytes (alloc w) + size c /\
  steal_arena_limit (alloc (free_commit w c)) = steal_arena_limit (alloc w).
Proof. intros H. unfold free_commit. simpl. rewrite H. auto. Qed.

Lemma allocate_local_hit aligned w core s t cl sc p ars :
  round_up s = Ok sc ->
  pop_at (arenas (alloc w)) core sc = Some (p, ars) ->
  fst (fst (allocate_impl aligned w core s t cl)) = Ok (mkChunk p sc core).
Proof. intros Hr Hp. unfold allocate_impl. rewrite Hr, Hp. reflexivity. Qed.

Lemma allocate_steal_hit aligned w core s t cl sc j p ars :
  round_up s = Ok sc ->
  pop_at (arenas (alloc w)) core sc = None ->
  (steal_arena_limit (alloc w) <? reserved_bytes (alloc w)) = true ->
  fst (steal_scan (touch w core) (length (arenas (alloc w))) core 1
         (length (arenas (alloc w)) - 1) sc) = Some (j, p, ars) ->
  fst (fst (allocate_impl aligned w core s t cl)) = Ok (mkChunk p sc j).
Proof.
  intros Hr Hp Hc Hs. unfold allocate_impl. rewrite Hr, Hp, Hc.
  destruct (steal_scan _ _ _ _ _ _) as [r w1]. simpl in Hs. subst r. reflexivity.
Qed.

(** A block pushed back on arena [j] of a table is popped again first. *)
Lemma pop_at_after_push ars j ar sc p :
  (j < length ars)%nat ->
  exists ars2, pop_at (<[j := push_free_chunk ar p sc]> ars) j sc = Some (p, ars2).
Proof.
  intros Hj. unfold pop_at. rewrite list_lookup_insert_eq by exact Hj.
  rewrite pop_push. eauto.
Qed.

Lemma free_fst_admits w c t :
  free_admits (alloc w) c = true -> fst (free w c t) = free_commit w c.
Proof. intros H. unfold free. rewrite H. reflexivity. Qed.

Lemma reuse_after_system_fallback aligned w w1' w1 core s sc t cl c t1 t3 cl' :
  (core < length (arenas (alloc w)))%nat ->
  round_up s = Ok sc ->
  alloc w1' = alloc w ->
  system_fallback aligned w1' core sc t cl = (Ok c, w1, t1) ->
  fst (fst (allocate_impl aligned (free_commit w1 c) core s t3 cl')) = Ok c.
Proof.
  intros Hcore Hr Ha1 E.
  pose proof E as E'.
  apply system_fallback_ok in E as [Hsz Hcid].
  apply system_fallback_frame in E' as [Ha _].
  destruct c as [p sz cid]; simpl in Hsz, Hcid; subst sz cid.
  destruct (lookup_lt_is_Some_2 _ _ Hcore) as [ar Har].
  destruct (free_commit_arenas w1 (mkChunk p sc core) ar) as (Hars & _ & _).
  { rewrite Ha, Ha1. exact Har. }
  destruct (pop_at_after_push (arenas (alloc w)) core ar sc p Hcore) as [ars2 Hp2].
  apply (allocate_local_hit _ _ _ _ _ _ sc p ars2 Hr).
  rewrite Hars, Ha, Ha1. exact Hp2.
Qed.

Lemma reuse_after_free aligned w core s t cl c w1 t1 t2 t3 cl' :
  (core < length (arenas (alloc w)))%nat ->
  allocate_impl aligned w core s t cl = (Ok c, w1, t1) ->
  free_admits (alloc w1) c = true ->
  fst (fst (allocate_impl aligned (fst (free w1 c t2)) core s t3 cl')) = Ok c.
Proof.
  intros Hcore E Hadm. rewrite free_fst_admits by exact Hadm.
  unfold allocate_impl in E.
  destruct (round_up s) as [sc|e] eqn:Hr; [|discriminate].
  destruct (pop_at (arenas (alloc w)) core sc) as [[p ars]|] eqn:Hp.
  - (* the block came from the local arena *)
    injection E as <- Hw1 _.
    destruct (pop_at_some _ _ _ _ _ Hp) as (ar & ar' & Har & Hpop & Hars).
    assert (Hw1a : arenas (alloc w1) = ars) by (rewrite <- Hw1; reflexivity).
    destruct (free_commit_arenas w1 (mkChunk p sc core) ar') as (Ha & _ & _).
    { rewrite Hw1a, Hars. apply list_lookup_insert_eq. exact Hcore. }
    destruct (pop_at_after_push ars core ar' sc p) as [ars2 Hp2].
    { rewrite Hars, length_insert. exact Hcore. }
    apply (allocate_local_hit _ _ _ _ _ _ sc p ars2 Hr).
    rewrite Ha, Hw1a. exact Hp2.
  - destruct (steal_arena_limit (alloc w) <? reserved_bytes (alloc w)) eqn:Hc.
    + destruct (steal_scan (touch w core) (length (arenas (alloc w))) core 1
                  (length (arenas (alloc w)) - 1) sc) as [stolen w1'] eqn:Hs.
      pose proof Hs as Hs'. apply steal_scan_spec in Hs' as (Ha1 & _ & _ & Hst).
      destruct stolen as [[[j p] ars']|].
      * (* the block was stolen from arena [j] *)
        injection E as <- Hw1 _.
        specialize (Hst j p ars' eq_refl). simpl in Hst.
        destruct (pop_at_some _ _ _ _ _ Hst) as (ar & ar' & Har & Hpop & Hars).
        assert (Hj : (j < length (arenas (alloc w)))%nat)
          by (apply lookup_lt_is_Some; eauto).
        assert (Hw1a : arenas (alloc w1) = ars') by (rewrite <- Hw1; reflexivity).
        assert (Hw1r : reserved_bytes (alloc w1) = reserved_bytes (alloc w) - sc)
          by (rewrite <- Hw1; reflexivity).
        assert (Hw1s : steal_arena_limit (alloc w1) = steal_arena_limit (alloc w))
          by (rewrite <- Hw1; reflexivity).
        destruct (free_commit_arenas w1 (mkChunk p sc j) ar') as (Ha & Hres & Hsl).
        { rewrite Hw1a, Hars. apply list_lookup_insert_eq. exact Hj. }
        assert (Hext : forall i, i <> j ->
                  arenas (alloc (free_commit w1 (mkChunk p sc j))) !! i =
                  arenas (alloc w) !! i).
        { intros i Hi. rewrite Ha, Hw1a, Hars.
          rewrite !list_lookup_insert_ne by (simpl; congruence). reflexivity. }
        destruct (pop_at_after_push ars' j ar' sc p) as [ars2 Hp2].
        { rewrite Hars, length_insert. exact Hj. }
        assert (Hne : core <> j) by (intros Heq; rewrite Heq in Hp; congruence).
        apply (allocate_steal_hit _ _ _ _ _ _ sc j p ars2 Hr).
        -- apply (pop_at_none_ext (arenas (alloc w))); [apply Hext; exact Hne | exact Hp].
        -- rewrite Hres, Hsl, Hw1r, Hw1s. simpl. rewrite Z.sub_add. exact Hc.
        -- assert (Hl : length (arenas (alloc (free_commit w1 (mkChunk p sc j)))) =
                        length (arenas (alloc w)))
             by (rewrite Ha, Hw1a, Hars, !length_insert; reflexivity).
           rewrite Hl.
           apply (steal_scan_ext _ (touch w core) _ _ _ _ _ j p ars').
           ++ rewrite Hs. reflexivity.
           ++ exact Hext.
           ++ cbn [touch alloc]. rewrite Ha, Hw1a. exact Hp2.
      * (* nothing to steal: system fallback *)
        apply (reuse_after_system_fallback aligned w w1' w1 core s sc t cl c t1);
          [exact Hcore | exact Hr | rewrite Ha1; reflexivity | exact E].
    + apply (reuse_after_system_fallback aligned w (touch w core) w1 core s sc t cl c t1);
        [exact Hcore | exact Hr | reflexivity | exact E].
Qed.

(** C9: on one thread (one core), if a chunk obtained from [allocate(s)]
    is released and cached (the reservation check admits it), the next
    [allocate(s)] hands back the very same chunk: same block, same size
    class, same origin arena. *)
Theorem free_then_allocate_same_block w core s t cl c w1 t1 t2 t3 cl' :
  (core < length (arenas (alloc w)))%nat ->
  allocate w core s t cl = (Ok c, w1, t1) ->
  free_admits (alloc w1) c = true ->
  fst (fst (allocate (fst (free w1 c t2)) core s t3 cl')) = Ok c.
Proof. apply reuse_after_free. Qed.

Lemma free_then_allocate_same_block_witness :
  let '(r, w1, _) := allocate demo_world 0 65536 None false in
  match r with
  | Ok c => fst (fst (allocate (fst (free w1 c None)) 0 65536 None false)) = Ok c
  | Err _ => False
  end.
Proof.
  destruct (allocate demo_world 0 65536 None false) as [[r w1] t1] eqn:E.
  destruct r as [c|e].
  - apply (free_then_allocate_same_block demo_world 0 65536 None false c w1 t1
             None None false).
    + simpl. lia.
    + exact E.
    + vm_compute in E. injection E as <- <- _. vm_compute. reflexivity.
  - vm_compute in E. discriminate.
Defined.

(* ------------------------------------------------------------------ *)
(** ** C10: configuration is fixed after construction *)

Lemma allocate_impl_frame aligned w core s t cl r w' t' :
  allocate_impl aligned w core s t cl = (r, w', t') ->
  same_configuration (alloc w) (alloc w') /\
  reserved_bytes (alloc w') <= reserved_bytes (alloc w).
Proof.
  unfold allocate_impl, same_configuration. intros E.
  destruct (round_up s) as [sc|e] eqn:Hr.
  2:{ injection E as _ <- _. auto with lia. }
  pose proof (round_up_pos _ _ Hr) as Hsc.
  destruct (pop_at (arenas (alloc w)) core sc) as [[p ars]|] eqn:Hp.
  - injection E as _ <- _. simpl.
    rewrite (pop_at_length _ _ _ _ _ Hp). auto with lia.
  - destruct (steal_arena_limit (alloc w) <? reserved_bytes (alloc w)).
    + destruct (steal_scan (touch w core) (length (arenas (alloc w))) core 1
                  (length (arenas (alloc w)) - 1) sc) as [stolen w1] eqn:Hs.
      apply steal_scan_spec in Hs as (Ha1 & _ & _ & Hst).
      destruct stolen as [[[j p] ars']|].
      * injection E as _ <- _. simpl.
        specialize (Hst j p ars' eq_refl). simpl in Hst.
        rewrite (pop_at_length _ _ _ _ _ Hst). auto with lia.
      * apply system_fallback_frame in E as [Ha _].
        rewrite Ha, Ha1. simpl. auto with lia.
    + apply system_fallback_frame in E as [Ha _].
      rewrite Ha. simpl. auto with lia.
Qed.

Lemma free_frame w c t :
  same_configuration (alloc w) (alloc (fst (free w c t))).
Proof.
  unfold free, same_configuration.
  destruct (free_admits (alloc w) c); simpl; [|auto].
  unfold free_commit. simpl.
  destruct (arenas (alloc w) !! core_id c); simpl; auto.
  rewrite length_insert. auto.
Qed.

(** C10: every call of [allocate], [allocate_align] and both [free]
    overloads leaves [_reserve_bytes_limit], [_steal_arena_limit] and the
    size of the per-core arena table unchanged. *)
Theorem api_call_keeps_configuration w call :
  same_configuration (alloc w) (alloc (fst (fst (api_call w call)))).
Proof.
  destruct call as [core sz t cl|core sz t cl|c t|core p sz t]; unfold api_call.
  - destruct (allocate w core sz t cl) as [[r w'] t'] eqn:E. simpl.
    apply allocate_impl_frame in E. tauto.
  - destruct (allocate_align w core sz t cl) as [[r w'] t'] eqn:E. simpl.
    apply allocate_impl_frame in E. tauto.
  - pose proof (free_frame w c t) as H.
    destruct (free w c t) as [w' t']. exact H.
  - pose proof (free_frame w (mkChunk p sz core) t) as H.
    unfold free_data. destruct (free w (mkChunk p sz core) t) as [w' t']. exact H.
Qed.

(* ------------------------------------------------------------------ *)
(** ** C8: the reservation limit under concurrency *)

Lemma free_commit_reserved w c :
  reserved_bytes (alloc (free_commit w c)) = reserved_bytes (alloc w) + size c /\
  reserve_bytes_limit (alloc (free_commit w c)) = reserve_bytes_limit (alloc w).
Proof. unfold free_commit. simpl. auto. Qed.

Lemma max_chunk_size_pos : 0 < max_chunk_size.
Proof. unfold max_chunk_size, max_chunk_shift. lia. Qed.

(** Reserving and then pushing is the sequential caching branch of
    [free]. *)
Lemma reserve_then_push w c :
  Concurrent.free_push (Concurrent.reserve_add w c) c = free_commit w c.
Proof. reflexivity. Qed.

Lemma within_limit_inv_step limit st st' :
  Concurrent.within_limit_inv limit st -> Concurrent.cstep st st' ->
  Concurrent.within_limit_inv limit st'.
Proof.
  unfold Concurrent.within_limit_inv, Concurrent.cached_bytes, Concurrent.limit_of.
  intros (Hlim & Hb) Hstep.
  destruct Hstep as
    [w ths i core aligned sz t cl r w' t' Hi E
    |w ths i c Hi Hadm
    |w ths i c Hi Hadm
    |w ths i c Hi]; cbn [Concurrent.cworld] in *.
  - apply allocate_impl_frame in E as ((Hl & _ & _) & Hres). split; lia.
  - unfold free_admits in Hadm. apply Z.leb_le in Hadm.
    unfold Concurrent.reserve_add. simpl. split; lia.
  - unfold free_bypass. simpl. split; lia.
  - unfold Concurrent.free_push. simpl. split; lia.
Qed.

Lemma within_limit_inv_rtc limit st st' :
  rtc Concurrent.cstep st st' ->
  Concurrent.within_limit_inv limit st -> Concurrent.within_limit_inv limit st'.
Proof.
  induction 1 as [x|x y z Hxy _ IH]; intros Hx; [exact Hx|].
  apply IH. exact (within_limit_inv_step limit x y Hx Hxy).
Qed.

(** C8: in every state reachable by any number of threads interleaving
    [allocate] and [free] (with chunks in flight between the reservation
    and the push of a [free]), the cached-byte count does not exceed the
    reservation limit, so in particular it never exceeds it by more than
    one maximum-size chunk. *)
Theorem concurrent_overshoot_bounded T st :
  Concurrent.reachable T st ->
  Concurrent.cached_bytes st <= Concurrent.limit_of st /\
  Concurrent.cached_bytes st <= Concurrent.limit_of st + max_chunk_size.
Proof.
  intros (ncores & pct & limit & sp & Hl & Hr).
  assert (H0 : Concurrent.within_limit_inv limit (Concurrent.cinit ncores T pct limit sp))
    by (unfold Concurrent.within_limit_inv; simpl; split; [reflexivity | exact Hl]).
  destruct (within_limit_inv_rtc limit _ _ Hr H0) as [Hlim Hb].
  pose proof max_chunk_size_pos. rewrite Hlim. lia.
Qed.

(** Three threads on a 1 MiB limit: threads 0 and 1 reserve 512 KiB each
    and thread 0 pushes its block; thread 2's 64 KiB release is then
    bypassed to the system and thread 2 allocates 512 KiB from the cache
    while thread 1's chunk is still in flight. *)
Lemma concurrent_overshoot_bounded_witness :
  exists st, Concurrent.reachable 3 st /\
    Concurrent.threads st = [Concurrent.Idle;
                             Concurrent.Pushing (mkChunk 8192 (2 ^ 19) 1);
                             Concurrent.Idle] /\
    Concurrent.cached_bytes st = 2 ^ 19 /\
    Concurrent.cached_bytes st <= Concurrent.limit_of st /\
    Concurrent.cached_bytes st <= Concurrent.limit_of st + max_chunk_size.
Proof.
  assert (Hr : exists st, rtc Concurrent.cstep
                 (Concurrent.cinit 2 3 10 (2 ^ 20) (sys demo_world)) st /\
               Concurrent.threads st = [Concurrent.Idle;
                             Concurrent.Pushing (mkChunk 8192 (2 ^ 19) 1);
                             Concurrent.Idle] /\
               Concurrent.cached_bytes st = 2 ^ 19).
  { eexists. split; [|split].
    - unfold Concurrent.cinit.
      eapply rtc_l.
      { apply (Concurrent.cstep_free_reserve _ _ 0 (mkChunk 4096 (2 ^ 19) 0));
          [reflexivity | vm_compute; reflexivity]. }
      eapply rtc_l.
      { apply (Concurrent.cstep_free_reserve _ _ 1 (mkChunk 8192 (2 ^ 19) 1));
          [reflexivity | vm_compute; reflexivity]. }
      eapply rtc_l.
      { apply (Concurrent.cstep_free_push _ _ 0 (mkChunk 4096 (2 ^ 19) 0)).
        reflexivity. }
      eapply rtc_l.
      { apply (Concurrent.cstep_free_bypass _ _ 2 (mkChunk 65536 65536 0));
          [reflexivity | vm_compute; reflexivity]. }
      eapply rtc_l.
      { eapply (Concurrent.cstep_allocate _ _ 2 0 false (2 ^ 19) None false).
        - reflexivity.
        - reflexivity. }
      apply rtc_refl.
    - reflexivity.
    - vm_compute. reflexivity. }
  destruct Hr as (st & Hrtc & Hth & Hc).
  exists st. split; [|split; [exact Hth|split; [exact Hc|]]].
  - exists 2%nat, 10, (2 ^ 20), (sys demo_world). split; [lia | exact Hrtc].
  - apply (concurrent_overshoot_bounded 3 st).
    exists 2%nat, 10, (2 ^ 20), (sys demo_world). split; [lia | exact Hrtc].
Defined.

(* ================================================================== *)
(** * Further properties of the allocator calls *)

(* ------------------------------------------------------------------ *)
(** ** The three ways an [allocate] call ends *)

(** A call of [allocate] or [allocate_align] either fails in [round_up]
    and changes nothing, or takes a cached block from some arena [j]
    (its own or a stolen one), or ends in the system fallback with the
    allocator object and the provider as they were before the call. *)
Lemma allocate_impl_cases aligned w core s t cl r w' t' :
  allocate_impl aligned w core s t cl = (r, w', t') ->
  (exists e, round_up s = Err e /\ r = Err e /\ w' = w /\ t' = t) \/
  (exists sc j p ars, round_up s = Ok sc /\
     pop_at (arenas (alloc w)) j sc = Some (p, ars) /\
     alloc w' = set_arenas (alloc w) ars (reserved_bytes (alloc w) - sc) /\
     sys w' = sys w /\ r = Ok (mkChunk p sc j) /\
     t' = option_map (fun t0 => consume t0 sc) t) \/
  (exists sc w1, round_up s = Ok sc /\ alloc w1 = alloc w /\ sys w1 = sys w /\
     system_fallback aligned w1 core sc t cl = (r, w', t')).
Proof.
  unfold allocate_impl. intros E.
  destruct (round_up s) as [sc|e] eqn:Hr.
  2:{ injection E as <- <- <-. left. eauto. }
  right.
  destruct (pop_at (arenas (alloc w)) core sc) as [[p ars]|] eqn:Hp.
  - injection E as <- <- <-. left. exists sc, core, p, ars. auto 10.
  - destruct (steal_arena_limit (alloc w) <? reserved_bytes (alloc w)).
    + destruct (steal_scan (touch w core) (length (arenas (alloc w))) core 1
                  (length (arenas (alloc w)) - 1) sc) as [stolen w1] eqn:Hs.
      apply steal_scan_spec in Hs as (Ha1 & Hs1 & _ & Hst).
      destruct stolen as [[[j p] ars']|].
      * injection E as <- <- <-. left. exists sc, j, p, ars'.
        specialize (Hst j p ars' eq_refl). simpl in *. auto 10.
      * right. exists sc, w1. simpl in *. auto.
    + right. exists sc, (touch w core). simpl. auto.
Qed.

Lemma system_fallback_cases aligned w core sc t cl r w' t' :
  system_fallback aligned w core sc t cl = (r, w', t') ->
  (w' = w /\ r = Err ResourceExceeded /\ t' = t /\ cl = true /\ is_Some t) \/
  (sys_log (sys w') =
     sys_log (sys w) ++ [if aligned then SysAllocAligned sc sc else SysAlloc sc] /\
   ((r = Ok (mkChunk (sys_next (sys w)) sc core) /\
     option_map consumption t' = option_map (fun t0 => consumption t0 + sc) t) \/
    (r = Err OutOfMemory /\ t' = t))).
Proof.
  unfold system_fallback, sys_allocate. intros E.
  destruct cl, t as [t0|]; simpl in E.
  1: destruct (try_consume t0 sc) as [t1|] eqn:Ht;
     [|injection E as <- <- <-; left; eauto].
  all: destruct (sc <=? sys_avail (sys w)); injection E as <- <- <-;
       right; simpl; split; auto.
  all: try (right; auto; fail).
  left. split; auto. unfold try_consume in Ht.
  destruct (_ || _); [|discriminate]. injection Ht as <-. reflexivity.
Qed.

(* ------------------------------------------------------------------ *)
(** ** Arena bookkeeping *)

Lemma pop_at_empty a j sc : arenas_empty a -> pop_at (arenas a) j sc = None.
Proof.
  intros He. destruct (pop_at (arenas a) j sc) as [[p ars]|] eqn:Hp; [|reflexivity].
  destruct (pop_at_some _ _ _ _ _ Hp) as (ar & ar' & Hj & Hpop & _).
  unfold pop_free_chunk in Hpop.
  destruct (chunk_lists ar !! class_of sc) as [[|p0 rest]|] eqn:Hl; try discriminate.
  specialize (He j ar _ _ Hj Hl). discriminate.
Qed.

Lemma pop_free_chunk_bytes ar sc p ar' :
  pop_free_chunk ar sc = Some (p, ar') -> arena_bytes ar' = arena_bytes ar - sc.
Proof.
  unfold pop_free_chunk. intros H.
  destruct (chunk_lists ar !! class_of sc) as [[|p0 rest]|]; try discriminate.
  injection H as _ <-. reflexivity.
Qed.

Lemma arena_total_insert ars : forall j ar x,
  ars !! j = Some ar ->
  arena_total (<[j := x]> ars) = arena_total ars - arena_bytes ar + arena_bytes x.
Proof.
  induction ars as [|a ars IH]; intros j ar x Hj; [discriminate|].
  destruct j as [|j]; simpl in *.
  - injection Hj as <-. lia.
  - rewrite (IH j ar x Hj). lia.
Qed.

(* ------------------------------------------------------------------ *)
(** ** One call at a time *)

Lemma run_calls_cons w call rest :
  run_calls w (call :: rest) = run_calls (fst (fst (api_call w call))) rest.
Proof. reflexivity. Qed.

(** Every [allocate] call result, seen through [api_call]. *)
Lemma api_call_allocate_impl w call :
  (exists aligned core s t cl r t',
     allocate_impl aligned w core s t cl = (r, fst (fst (api_call w call)), t')) \/
  (exists c t, fst (fst (api_call w call)) = fst (free w c t) /\
     match call with
     | CallFree c0 _ => c = c0
     | CallFreeData core p sz _ => c = mkChunk p sz core
     | _ => False
     end).
Proof.
  destruct call as [core sz t cl|core sz t cl|c t|core p sz t]; unfold api_call.
  - left. destruct (allocate w core sz t cl) as [[r w'] t'] eqn:E.
    exists false, core, sz, t, cl, r, t'. exact E.
  - left. destruct (allocate_align w core sz t cl) as [[r w'] t'] eqn:E.
    exists true, core, sz, t, cl, r, t'. exact E.
  - right. exists c, t. destruct (free w c t). auto.
  - right. exists (mkChunk p sz core), t. unfold free_data.
    destruct (free w (mkChunk p sz core) t). auto.
Qed.

Lemma zero_limit_step w call :
  reserve_bytes_limit (alloc w) = 0 -> reserved_bytes (alloc w) = 0 ->
  arenas_empty (alloc w) -> freed_size_pos call ->
  alloc (fst (fst (api_call w call))) = alloc w.
Proof.
  intros Hl Hr He Hpos.
  destruct (api_call_allocate_impl w call)
    as [(aligned & core & s & t & cl & r & t' & E)|(c & t & -> & Hc)].
  - apply allocate_impl_cases in E
      as [(e & _ & _ & -> & _)|[(sc & j & p & ars & _ & Hp & _)|(sc & w1 & _ & Ha & _ & Hf)]].
    + reflexivity.
    + rewrite pop_at_empty in Hp by exact He. discriminate.
    + apply system_fallback_frame in Hf as [Ha' _]. congruence.
  - assert (Hs : 0 < size c).
    { destruct call; try contradiction; subst c; exact Hpos. }
    unfold free, free_admits. rewrite Hl, Hr.
    destruct (0 + size c <=? 0) eqn:Hb; [apply Z.leb_le in Hb; lia|].
    reflexivity.
Qed.

Lemma within_limit_step w call :
  reserved_bytes (alloc w) <= reserve_bytes_limit (alloc w) ->
  reserve_bytes_limit (alloc (fst (fst (api_call w call)))) = reserve_bytes_limit (alloc w) /\
  reserved_bytes (alloc (fst (fst (api_call w call)))) <= reserve_bytes_limit (alloc w).
Proof.
  intros Hle.
  destruct (api_call_allocate_impl w call)
    as [(aligned & core & s & t & cl & r & t' & E)|(c & t & -> & _)].
  - apply allocate_impl_frame in E as ((Hl & _ & _) & Hr). lia.
  - unfold free. destruct (free_admits (alloc w) c) eqn:Hb; cbn [fst].
    + unfold free_admits in Hb. apply Z.leb_le in Hb.
      pose proof (free_commit_reserved w c) as [-> ->]. lia.
    + auto.
Qed.

Lemma accounting_step w call :
  reserved_bytes (alloc w) = arena_total (arenas (alloc w)) ->
  freed_core_in (length (arenas (alloc w))) call ->
  reserved_bytes (alloc (fst (fst (api_call w call)))) =
    arena_total (arenas (alloc (fst (fst (api_call w call))))) /\
  length (arenas (alloc (fst (fst (api_call w call))))) = length (arenas (alloc w)).
Proof.
  intros Hinv Hin.
  destruct (api_call_allocate_impl w call)
    as [(aligned & core & s & t & cl & r & t' & E)|(c & t & -> & Hc)].
  - apply allocate_impl_cases in E
      as [(e & _ & _ & -> & _)|[(sc & j & p & ars & _ & Hp & -> & _)|(sc & w1 & _ & Ha & _ & Hf)]].
    + auto.
    + simpl. split; [|exact (pop_at_length _ _ _ _ _ Hp)].
      destruct (pop_at_some _ _ _ _ _ Hp) as (ar & ar' & Hj & Hpop & ->).
      rewrite (arena_total_insert _ _ _ _ Hj), (pop_free_chunk_bytes _ _ _ _ Hpop). lia.
    + apply system_fallback_frame in Hf as [Ha' _]. rewrite Ha', Ha. auto.
  - assert (Hcore : (core_id c < length (arenas (alloc w)))%nat).
    { destruct call; try contradiction; subst c; exact Hin. }
    unfold free. destruct (free_admits (alloc w) c); simpl; [|auto].
    unfold free_commit. simpl.
    destruct (lookup_lt_is_Some_2 _ _ Hcore) as [ar Har]. rewrite Har. simpl.
    rewrite length_insert, (arena_total_insert _ _ _ _ Har). simpl. split; lia.
Qed.

Lemma new_chunk_allocator_empty ncores pct limit :
  arenas_empty (new_chunk_allocator ncores pct limit).
Proof.
  unfold arenas_empty, new_chunk_allocator. simpl.
  induction ncores as [|n IH]; intros j ar k l Hj Hk; [discriminate|].
  destruct j as [|j]; simpl in Hj.
  - injection Hj as <-. simpl in Hk. rewrite lookup_empty in Hk. discriminate.
  - exact (IH j ar k l Hj Hk).
Qed.

Lemma round_up_err s e : round_up s = Err e -> e = InvalidArgument.
Proof. unfold round_up. destruct (_ || _); congruence. Qed.

Lemma steal_scan_first (fuel : nat) : forall w ncores core k sc j p ars w',
  steal_scan w ncores core k fuel sc = (Some (j, p, ars), w') ->
  exists i, (i < fuel)%nat /\ j = ((core + (k + i)) mod ncores)%nat /\
    pop_at (arenas (alloc w)) j sc = Some (p, ars) /\
    forall i', (i' < i)%nat ->
      pop_at (arenas (alloc w)) ((core + (k + i')) mod ncores)%nat sc = None.
Proof.
  induction fuel as [|f IH]; intros w ncores core k sc j p ars w' H; simpl in H;
    [discriminate|].
  destruct (pop_at (arenas (alloc w)) ((core + k) mod ncores) sc)
    as [[p0 ars0]|] eqn:Hp.
  - injection H as <- <- <- _. exists 0%nat.
    rewrite Nat.add_0_r. split; [lia|]. split; [reflexivity|]. split; [exact Hp|].
    intros i' Hi'. lia.
  - apply IH in H as (i & Hi & Hj & Hpop & Hbefore). simpl in *.
    exists (S i). split; [lia|]. split; [rewrite Hj; f_equal; lia|].
    split; [exact Hpop|].
    intros i' Hi'. destruct i' as [|i'].
    + rewrite Nat.add_0_r. exact Hp.
    + specialize (Hbefore i' ltac:(lia)).
      replace (k + S i')%nat with (S k + i')%nat by lia. exact Hbefore.
Qed.

(** [demo_world] with a reservation limit of 0. *)
Definition zero_limit_world : World :=
  mkWorld (new_chunk_allocator 2 10 0) (sys demo_world) [].

(* ------------------------------------------------------------------ *)
(** ** Extra properties *)

(** With a reservation limit of 0 (and nothing cached), the allocator
    acts as allocating directly from the system: any sequence of
    [allocate], [allocate_align] and [free] calls on chunks of positive
    length leaves the allocator object (count, arenas, limits) unchanged. *)
Theorem zero_limit_run_keeps_allocator w calls :
  reserve_bytes_limit (alloc w) = 0 -> reserved_bytes (alloc w) = 0 ->
  arenas_empty (alloc w) -> Forall freed_size_pos calls ->
  alloc (run_calls w calls) = alloc w.
Proof.
  revert w. induction calls as [|call rest IH]; intros w Hl Hr He Hf; [reflexivity|].
  inversion Hf as [|? ? Hc Hrest]; subst.
  rewrite run_calls_cons.
  pose proof (zero_limit_step w call Hl Hr He Hc) as Ha.
  rewrite IH; [exact Ha| try rewrite Ha; assumption ..].
Qed.

Lemma zero_limit_run_keeps_allocator_witness :
  alloc (run_calls zero_limit_world
           [CallAllocate 0 100 None false; CallFree (mkChunk 4096 128 0) None;
            CallFreeData 1 8192 64 None; CallAllocateAlign 1 64 None false]) =
  alloc zero_limit_world.
Proof.
  apply zero_limit_run_keeps_allocator.
  - reflexivity.
  - reflexivity.
  - apply new_chunk_allocator_empty.
  - repeat constructor; simpl; lia.
Defined.

(** When no arena holds a free block, a successful [allocate] or
    [allocate_align] takes its block from the system provider: the chunk
    is the provider's block, tagged with the calling core, and exactly
    one request for the size class was made (aligned to the size class
    for [allocate_align]). *)
Theorem allocate_uncached_from_system aligned w core s t cl c w' t' :
  arenas_empty (alloc w) ->
  allocate_impl aligned w core s t cl = (Ok c, w', t') ->
  data c = sys_next (sys w) /\ core_id c = core /\
  sys_log (sys w') = sys_log (sys w) ++
    [if aligned then SysAllocAligned (size c) (size c) else SysAlloc (size c)].
Proof.
  intros He E.
  apply allocate_impl_cases in E
    as [(e & _ & ? & _)|[(sc & j & p & ars & _ & Hp & _)|(sc & w1 & _ & _ & Hs & Hf)]];
    [discriminate| rewrite pop_at_empty in Hp by exact He; discriminate|].
  apply system_fallback_cases in Hf
    as [(_ & ? & _)|(Hlog & [(Hc & _)|(? & _)])]; try discriminate.
  injection Hc as ->. simpl. rewrite Hlog, Hs. auto.
Qed.

Lemma allocate_uncached_from_system_witness :
  let '(r, w', t') := allocate_align zero_limit_world 1 100 None false in
  exists c, r = Ok c /\ data c = sys_next (sys zero_limit_world) /\ core_id c = 1%nat /\
    sys_log (sys w') = sys_log (sys zero_limit_world) ++ [SysAllocAligned (size c) (size c)].
Proof.
  destruct (allocate_align zero_limit_world 1 100 None false) as [[r w'] t'] eqn:E.
  destruct r as [c|e].
  - exists c. split; [reflexivity|].
    exact (allocate_uncached_from_system true zero_limit_world 1 100 None false c w' t'
             (new_chunk_allocator_empty 2 10 0) E).
  - vm_compute in E. discriminate.
Defined.

(** On one thread, a sequence of calls never caches more than the
    reservation limit: the count stays within the limit it started
    within. *)
Theorem run_calls_within_limit w calls :
  reserved_bytes (alloc w) <= reserve_bytes_limit (alloc w) ->
  reserved_bytes (alloc (run_calls w calls)) <= reserve_bytes_limit (alloc w) /\
  reserve_bytes_limit (alloc (run_calls w calls)) = reserve_bytes_limit (alloc w).
Proof.
  revert w. induction calls as [|call rest IH]; intros w Hle; [simpl; lia|].
  rewrite run_calls_cons.
  destruct (within_limit_step w call Hle) as [Hl Hr].
  rewrite <- Hl. apply IH. rewrite Hl. exact Hr.
Qed.

Lemma run_calls_within_limit_witness :
  reserved_bytes (alloc (run_calls demo_world
    [CallFree (mkChunk 4096 (2 ^ 19) 0) None; CallFree (mkChunk 8192 (2 ^ 19) 1) None;
     CallFreeData 0 65536 (2 ^ 19) None])) <= reserve_bytes_limit (alloc demo_world) /\
  reserve_bytes_limit (alloc (run_calls demo_world
    [CallFree (mkChunk 4096 (2 ^ 19) 0) None; CallFree (mkChunk 8192 (2 ^ 19) 1) None;
     CallFreeData 0 65536 (2 ^ 19) None])) = reserve_bytes_limit (alloc demo_world).
Proof. apply run_calls_within_limit. vm_compute. discriminate. Defined.

(** On one thread, the global count of cached bytes ([_reserved_bytes])
    stays equal to the sum of the arenas' local tallies, provided every
    [free] routes its chunk to an existing arena. *)
Theorem run_calls_reserved_matches_arenas w calls :
  reserved_bytes (alloc w) = arena_total (arenas (alloc w)) ->
  Forall (freed_core_in (length (arenas (alloc w)))) calls ->
  reserved_bytes (alloc (run_calls w calls)) =
    arena_total (arenas (alloc (run_calls w calls))).
Proof.
  revert w. induction calls as [|call rest IH]; intros w Hinv Hin; [exact Hinv|].
  inversion Hin as [|? ? Hc Hrest]; subst.
  rewrite run_calls_cons.
  destruct (accounting_step w call Hinv Hc) as [Hinv' Hlen].
  apply IH; [exact Hinv'|]. rewrite Hlen. exact Hrest.
Qed.

Lemma run_calls_reserved_matches_arenas_witness :
  reserved_bytes (alloc (run_calls demo_world
    [CallFree (mkChunk 4096 65536 0) None; CallFreeData 1 8192 4096 None;
     CallAllocate 1 65536 None false])) =
  arena_total (arenas (alloc (run_calls demo_world
    [CallFree (mkChunk 4096 65536 0) None; CallFreeData 1 8192 4096 None;
     CallAllocate 1 65536 None false]))).
Proof.
  apply run_calls_reserved_matches_arenas.
  - reflexivity.
  - repeat constructor; simpl; lia.
Defined.

(** [allocate] and [allocate_align] make at most one request to the system
    provider, for the size class of the requested size ([allocate_align]
    asking for an alignment equal to it), and never free memory to it. *)
Theorem allocate_impl_sys_requests aligned w core s t cl r w' t' :
  allocate_impl aligned w core s t cl = (r, w', t') ->
  sys_log (sys w') = sys_log (sys w) \/
  exists sc, round_up s = Ok sc /\
    sys_log (sys w') = sys_log (sys w) ++
      [if aligned then SysAllocAligned sc sc else SysAlloc sc].
Proof.
  intros E.
  apply allocate_impl_cases in E
    as [(e & _ & _ & -> & _)|[(sc & j & p & ars & _ & _ & _ & Hs & _)|(sc & w1 & Hr & _ & Hs & Hf)]].
  - auto.
  - rewrite Hs. auto.
  - apply system_fallback_cases in Hf as [(-> & _)|(Hlog & _)].
    + rewrite Hs. auto.
    + right. exists sc. rewrite Hlog, Hs. auto.
Qed.

Lemma allocate_impl_sys_requests_witness :
  let '(r, w', t') := allocate_align demo_world 0 100 None false in
  sys_log (sys w') = sys_log (sys demo_world) \/
  exists sc, round_up 100 = Ok sc /\
    sys_log (sys w') = sys_log (sys demo_world) ++ [SysAllocAligned sc sc].
Proof.
  destruct (allocate_align demo_world 0 100 None false) as [[r w'] t'] eqn:E.
  exact (allocate_impl_sys_requests true demo_world 0 100 None false r w' t' E).
Defined.

(** Without [check_limits] (its default) or without a tracker (the
    default [nullptr]), [allocate] and [allocate_align] fail only with
    [InvalidArgument] or [OutOfMemory], never with [ResourceExceeded]. *)
Theorem allocate_errors_without_limits aligned w core s t cl e w' t' :
  cl = false \/ t = None ->
  allocate_impl aligned w core s t cl = (Err e, w', t') ->
  e = InvalidArgument \/ e = OutOfMemory.
Proof.
  intros Hcl E.
  apply allocate_impl_cases in E
    as [(e0 & Hr & He & _)|[(sc & j & p & ars & _ & _ & _ & _ & ? & _)|(sc & w1 & _ & _ & _ & Hf)]];
    [|discriminate|].
  - injection He as <-. left. exact (round_up_err _ _ Hr).
  - apply system_fallback_cases in Hf
      as [(_ & _ & _ & -> & [t0 ->])|(_ & [(? & _)|(He & _)])];
      [destruct Hcl; discriminate|discriminate|].
    injection He as <-. auto.
Qed.

Lemma allocate_errors_without_limits_witness :
  let '(r, w', t') := allocate demo_world 0 (2 ^ 31) (Some full_tracker) false in
  exists e, r = Err e /\ (e = InvalidArgument \/ e = OutOfMemory).
Proof.
  destruct (allocate demo_world 0 (2 ^ 31) (Some full_tracker) false) as [[r w'] t'] eqn:E.
  destruct r as [c|e].
  - vm_compute in E. discriminate.
  - exists e. split; [reflexivity|].
    exact (allocate_errors_without_limits false demo_world 0 (2 ^ 31) (Some full_tracker)
             false e w' t' (or_introl eq_refl) E).
Defined.

(** A failed [allocate] or [allocate_align] leaves the allocator object
    (count, arenas, limits) and the tracker as they were. *)
Theorem allocate_error_no_effect aligned w core s t cl e w' t' :
  allocate_impl aligned w core s t cl = (Err e, w', t') ->
  alloc w' = alloc w /\ t' = t.
Proof.
  intros E.
  apply allocate_impl_cases in E
    as [(e0 & _ & _ & -> & ->)|[(sc & j & p & ars & _ & _ & _ & _ & ? & _)|(sc & w1 & _ & Ha & _ & Hf)]];
    [auto|discriminate|].
  pose proof (system_fallback_frame _ _ _ _ _ _ _ _ _ Hf) as [Ha' _].
  apply system_fallback_cases in Hf
    as [(_ & _ & -> & _)|(_ & [(? & _)|(_ & ->)])]; [|discriminate|];
    split; congruence.
Qed.

Lemma allocate_error_no_effect_witness :
  let '(r, w', t') := allocate_align demo_world 0 (2 ^ 31) (Some full_tracker) true in
  exists e, r = Err e /\ alloc w' = alloc demo_world /\ t' = Some full_tracker.
Proof.
  destruct (allocate_align demo_world 0 (2 ^ 31) (Some full_tracker) true) as [[r w'] t'] eqn:E.
  destruct r as [c|e].
  - vm_compute in E. discriminate.
  - exists e. split; [reflexivity|].
    exact (allocate_error_no_effect true demo_world 0 (2 ^ 31) (Some full_tracker) true
             e w' t' E).
Defined.

(** With a tracker, a successful [allocate] or [allocate_align] charges it
    the chunk's size, and [free] of that chunk with the tracker it got
    back returns the tracker's consumption to its value before the
    [allocate]. *)
Theorem allocate_free_tracker_round_trip aligned w core s t cl c w' t' :
  allocate_impl aligned w core s (Some t) cl = (Ok c, w', t') ->
  option_map consumption t' = Some (consumption t + size c) /\
  option_map consumption (snd (free w' c t')) = Some (consumption t).
Proof.
  intros E.
  assert (H1 : option_map consumption t' = Some (consumption t + size c)).
  { apply allocate_impl_cases in E
      as [(e & _ & ? & _)|[(sc & j & p & ars & _ & _ & _ & _ & Hc & ->)|(sc & w1 & _ & _ & _ & Hf)]];
      [discriminate| injection Hc as ->; reflexivity|].
    apply system_fallback_cases in Hf
      as [(_ & ? & _)|(_ & [(Hc & Ht)|(? & _)])]; try discriminate.
    injection Hc as ->. exact Ht. }
  split; [exact H1|].
  destruct t' as [x|]; [|discriminate].
  injection H1 as H1. unfold free. cbn [snd option_map release consumption].
  rewrite H1. f_equal. lia.
Qed.

Lemma allocate_free_tracker_round_trip_witness :
  let '(r, w', t') := allocate cached_world 0 65536 (Some (mkMemTracker 100 (-1))) true in
  exists c, r = Ok c /\
    option_map consumption t' = Some (100 + size c) /\
    option_map consumption (snd (free w' c t')) = Some 100.
Proof.
  destruct (allocate cached_world 0 65536 (Some (mkMemTracker 100 (-1))) true)
    as [[r w'] t'] eqn:E.
  destruct r as [c|e].
  - exists c. split; [reflexivity|].
    exact (allocate_free_tracker_round_trip false cached_world 0 65536
             (mkMemTracker 100 (-1)) true c w' t' E).
  - vm_compute in E. discriminate.
Defined.

(** A chunk tagged with another core than the caller's was stolen: the
    caller's arena had no block of the size class, and the peers are
    probed in order starting right after the caller's core; the chunk
    comes from the first peer in that order that holds a block. *)
Theorem allocate_steal_first_peer aligned w core s t cl c w' t' :
  allocate_impl aligned w core s t cl = (Ok c, w', t') ->
  core_id c <> core ->
  pop_at (arenas (alloc w)) core (size c) = None /\
  exists k, (1 <= k < length (arenas (alloc w)))%nat /\
    core_id c = ((core + k) mod length (arenas (alloc w)))%nat /\
    is_Some (pop_at (arenas (alloc w)) (core_id c) (size c)) /\
    forall k', (1 <= k' < k)%nat ->
      pop_at (arenas (alloc w)) ((core + k') mod length (arenas (alloc w)))%nat (size c) = None.
Proof.
  unfold allocate_impl. intros E Hne.
  destruct (round_up s) as [sc|e] eqn:Hr; [|discriminate].
  destruct (pop_at (arenas (alloc w)) core sc) as [[p ars]|] eqn:Hp.
  { injection E as <- _ _. simpl in Hne. congruence. }
  destruct (steal_arena_limit (alloc w) <? reserved_bytes (alloc w)).
  2:{ apply system_fallback_ok in E as [_ Hc]. congruence. }
  destruct (steal_scan (touch w core) (length (arenas (alloc w))) core 1
              (length (arenas (alloc w)) - 1) sc) as [stolen w1] eqn:Hs.
  destruct stolen as [[[j p] ars']|].
  2:{ apply system_fallback_ok in E as [_ Hc]. congruence. }
  injection E as <- _ _. simpl.
  apply steal_scan_first in Hs as (i & Hi & Hj & Hpop & Hbefore). simpl in *.
  split; [exact Hp|].
  exists (1 + i)%nat. split; [lia|]. split; [exact Hj|].
  split; [rewrite Hpop; eexists; reflexivity|].
  intros k' Hk'. replace k' with (1 + (k' - 1))%nat by lia.
  apply Hbefore. lia.
Qed.

Lemma allocate_steal_first_peer_witness :
  let '(r, w', t') := allocate peer_cached_world 0 131072 None false in
  exists c, r = Ok c /\ core_id c = 1%nat /\
    pop_at (arenas (alloc peer_cached_world)) 0 (size c) = None.
Proof.
  destruct (allocate peer_cached_world 0 131072 None false) as [[r w'] t'] eqn:E.
  destruct r as [c|e].
  - exists c. split; [reflexivity|].
    assert (Hc : core_id c = 1%nat) by (vm_compute in E; injection E as <- _ _; reflexivity).
    split; [exact Hc|].
    apply (allocate_steal_first_peer false peer_cached_world 0 131072 None false c w' t' E).
    rewrite Hc. discriminate.
  - vm_compute in E. discriminate.
Defined.
